(** * CoilMQ DBM queue store (coilmq/store/dbm.py)

    A shallow embedding of [make_dbm] and of the [DbmQueue] class, and the
    properties of the storage contract proved over it.

    Python values are modelled as follows.
    - [int] is [Z] (unbounded); a [datetime] is a [Z] count of microseconds
      and a [timedelta] a [Z] number of microseconds.
    - a [shelve.Shelf] is a finite map with string keys ([gmap string _]).
      The metadata shelf is opened with [writeback=True]: reads and in-place
      mutations go through its cache, and only [__setitem__] and [sync()]
      reach the database file.  [queue_metadata] is the view the program
      reads (cache over file), [metadata_db] is the file itself.
    - a [collections.deque] is a list whose head is the LEFT end.
    - an exception leaves every mutation made before it in place, so every
      method is a function from the store to the store after the call and
      the outcome of the call. *)

From Stdlib Require Import ZArith Lia Ascii.
From stdpp Require Import gmap strings list fin_maps.

Local Open Scope Z_scope.

(** ** Exceptions and outcomes *)

Inductive exn : Type :=
  | ValueError (msg : string)
  | KeyError (key : string)
  | IndexError (msg : string)
  | ConfigError (msg : string).

Inductive outcome (A : Type) : Type :=
  | Returned (a : A)
  | Raised (e : exn).
Arguments Returned {A} a.
Arguments Raised {A} e.

(** ** Frames

    [coilmq.frame.StompFrame] is opaque to the store except for its
    [message_id] property, which is [None] when the header is missing. *)

Record Frame : Type := mkFrame {
  message_id : option string;
  body : string
}.

(** Python truthiness of [message_id]: [None] and the empty string are
    false. *)
Definition truthy (o : option string) : option string :=
  match o with
  | None => None
  | Some id => if decide (id = EmptyString) then None else Some id
  end.

(** ** [collections.deque] *)

Section deque.
Context {A : Type}.

Definition appendleft (x : A) (dq : list A) : list A := x :: dq.

(** [dq.pop()] removes and returns the RIGHT-most element; [None] stands
    for the [IndexError] on an empty deque. *)
Fixpoint pop (dq : list A) : option (A * list A) :=
  match dq with
  | [] => None
  | x :: rest =>
      match pop rest with
      | None => Some (x, [])
      | Some (y, rest') => Some (y, x :: rest')
      end
  end.

(** [bool(dq)] *)
Definition nonempty (dq : list A) : bool :=
  match dq with [] => false | _ :: _ => true end.
End deque.

(** ** Metadata entries: the dict built at line 145 *)

Module Entry.
Record t : Type := mk {
  frames : list string;
  enqueued : Z;
  dequeued : Z;
  size : Z
}.

Definition set_frames (fs : list string) (e : t) : t :=
  mk fs (enqueued e) (dequeued e) (size e).
Definition set_enqueued (n : Z) (e : t) : t :=
  mk (frames e) n (dequeued e) (size e).
Definition set_dequeued (n : Z) (e : t) : t :=
  mk (frames e) (enqueued e) n (size e).
Definition set_size (n : Z) (e : t) : t :=
  mk (frames e) (enqueued e) (dequeued e) n.

(** [{'frames': deque(), 'enqueued': 0, 'dequeued': 0, 'size': 0}] *)
Definition new : t := mk [] 0 0 0.
End Entry.

(** ** The store object *)

Record DbmQueue : Type := mkDbmQueue {
  data_dir : string;
  queue_metadata : gmap string Entry.t;
  frame_store : gmap string Frame;
  _opcount : Z;
  _last_sync : Z;
  checkpoint_operations : Z;
  checkpoint_timeout : Z;
  (** the metadata database file, as last written *)
  metadata_db : gmap string Entry.t;
  (** number of calls of [queue_metadata.sync()] made so far *)
  sync_calls : nat
}.

Definition set_queue_metadata (md : gmap string Entry.t) (self : DbmQueue) : DbmQueue :=
  mkDbmQueue (data_dir self) md (frame_store self) (_opcount self)
    (_last_sync self) (checkpoint_operations self) (checkpoint_timeout self)
    (metadata_db self) (sync_calls self).

Definition set_frame_store (fs : gmap string Frame) (self : DbmQueue) : DbmQueue :=
  mkDbmQueue (data_dir self) (queue_metadata self) fs (_opcount self)
    (_last_sync self) (checkpoint_operations self) (checkpoint_timeout self)
    (metadata_db self) (sync_calls self).

Definition set_opcount (n : Z) (self : DbmQueue) : DbmQueue :=
  mkDbmQueue (data_dir self) (queue_metadata self) (frame_store self) n
    (_last_sync self) (checkpoint_operations self) (checkpoint_timeout self)
    (metadata_db self) (sync_calls self).

Definition set_last_sync (t : Z) (self : DbmQueue) : DbmQueue :=
  mkDbmQueue (data_dir self) (queue_metadata self) (frame_store self)
    (_opcount self) t (checkpoint_operations self) (checkpoint_timeout self)
    (metadata_db self) (sync_calls self).

Definition set_metadata_db (db : gmap string Entry.t) (self : DbmQueue) : DbmQueue :=
  mkDbmQueue (data_dir self) (queue_metadata self) (frame_store self)
    (_opcount self) (_last_sync self) (checkpoint_operations self)
    (checkpoint_timeout self) db (sync_calls self).

Definition set_sync_calls (n : nat) (self : DbmQueue) : DbmQueue :=
  mkDbmQueue (data_dir self) (queue_metadata self) (frame_store self)
    (_opcount self) (_last_sync self) (checkpoint_operations self)
    (checkpoint_timeout self) (metadata_db self) n.

(** ** Methods as state transformers with exceptions *)

Definition M (A : Type) : Type := DbmQueue -> DbmQueue * outcome A.

Definition ret {A} (a : A) : M A := fun self => (self, Returned a).
Definition raise {A} (e : exn) : M A := fun self => (self, Raised e).
Definition bind {A B} (m : M A) (k : A -> M B) : M B :=
  fun self =>
    match m self with
    | (self', Returned a) => k a self'
    | (self', Raised e) => (self', Raised e)
    end.
Definition gets {A} (f : DbmQueue -> A) : M A := fun self => (self, Returned (f self)).
Definition modify (f : DbmQueue -> DbmQueue) : M unit := fun self => (f self, Returned tt).

Declare Scope py_scope.
Delimit Scope py_scope with py.
Notation "x <- m ;; k" := (bind m (fun x => k))
  (at level 100, m at next level, right associativity) : py_scope.
Notation "m ;;; k" := (bind m (fun _ => k))
  (at level 100, right associativity) : py_scope.
Local Open Scope py_scope.

(** [self.queue_metadata[destination] = value]: with [writeback=True] the
    shelf stores the value in its cache and writes it to the file. *)
Definition metadata_setitem (destination : string) (value : Entry.t) : M unit :=
  modify (fun self =>
    set_metadata_db (<[destination := value]> (metadata_db self))
      (set_queue_metadata (<[destination := value]> (queue_metadata self)) self)).

(** [self.queue_metadata[destination]]: [KeyError] on a missing key. *)
Definition metadata_getitem (destination : string) : M Entry.t :=
  fun self =>
    match queue_metadata self !! destination with
    | Some e => (self, Returned e)
    | None => (self, Raised (KeyError destination))
    end.

(** An in-place mutation of the cached entry
    [self.queue_metadata[destination]]; the file is not touched. *)
Definition metadata_mutate (destination : string) (f : Entry.t -> Entry.t) : M unit :=
  e <- metadata_getitem destination ;;
  modify (fun self =>
    set_queue_metadata (<[destination := f e]> (queue_metadata self)) self).

(** [self.frame_store[message_id] = frame] *)
Definition frame_store_setitem (id : string) (frame : Frame) : M unit :=
  modify (fun self => set_frame_store (<[id := frame]> (frame_store self)) self).

(** [self.frame_store[message_id]] *)
Definition frame_store_getitem (id : string) : M Frame :=
  fun self =>
    match frame_store self !! id with
    | Some f => (self, Returned f)
    | None => (self, Raised (KeyError id))
    end.

(** [del self.frame_store[message_id]] *)
Definition frame_store_delitem (id : string) : M unit :=
  fun self =>
    match frame_store self !! id with
    | Some _ => (set_frame_store (delete id (frame_store self)) self, Returned tt)
    | None => (self, Raised (KeyError id))
    end.

(** [DbmQueue._sync] (lines 217-233).  [now] is the reading of
    [datetime.now()] in the test of line 227 and [now'] the later reading
    of line 230. *)
Definition _sync (now now' : Z) : M unit :=
  fun self =>
    if (_opcount self >? checkpoint_operations self)
       || (now >? _last_sync self + checkpoint_timeout self)
    then
      (set_opcount 0
         (set_last_sync now'
            (set_sync_calls (S (sync_calls self))
               (set_metadata_db (queue_metadata self) self))),
       Returned tt)
    else (self, Returned tt).

(** [DbmQueue.has_frames] (line 191) *)
Definition has_frames (destination : string) : M bool :=
  fun self =>
    match queue_metadata self !! destination with
    | None => (self, Returned false)
    | Some e => (self, Returned (nonempty (Entry.frames e)))
    end.

(** [DbmQueue.size] (lines 204-207) *)
Definition size (destination : string) : M Z :=
  fun self =>
    match queue_metadata self !! destination with
    | None => (self, Returned 0)
    | Some e => (self, Returned (Z.of_nat (length (Entry.frames e))))
    end.

(** [DbmQueue.enqueue] (lines 139-153) *)
Definition enqueue (now now' : Z) (destination : string) (frame : Frame) : M unit :=
  match truthy (message_id frame) with
  | None => raise (ValueError "Cannot queue a frame without message-id set.")
  | Some message_id =>
      known <- gets (fun self => bool_decide (is_Some (queue_metadata self !! destination))) ;;
      (if negb known then metadata_setitem destination Entry.new else ret tt) ;;;
      metadata_mutate destination
        (fun e => Entry.set_frames (appendleft message_id (Entry.frames e)) e) ;;;
      metadata_mutate destination
        (fun e => Entry.set_enqueued (Entry.enqueued e + 1) e) ;;;
      frame_store_setitem message_id frame ;;;
      modify (fun self => set_opcount (_opcount self + 1) self) ;;;
      _sync now now'
  end.

(** [self.queue_metadata[destination]['frames'].pop()] *)
Definition metadata_pop (destination : string) : M string :=
  e <- metadata_getitem destination ;;
  match pop (Entry.frames e) with
  | None => raise (IndexError "pop from an empty deque")
  | Some (id, rest) =>
      modify (fun self =>
        set_queue_metadata
          (<[destination := Entry.set_frames rest e]> (queue_metadata self)) self) ;;;
      ret id
  end.

(** [DbmQueue.dequeue] (lines 166-178) *)
Definition dequeue (now now' : Z) (destination : string) : M (option Frame) :=
  pending <- has_frames destination ;;
  if negb pending then ret None
  else
    message_id <- metadata_pop destination ;;
    metadata_mutate destination
      (fun e => Entry.set_dequeued (Entry.dequeued e + 1) e) ;;;
    frame <- frame_store_getitem message_id ;;
    frame_store_delitem message_id ;;;
    modify (fun self => set_opcount (_opcount self + 1) self) ;;;
    _sync now now' ;;;
    ret (Some frame).

(** ** Construction: [DbmQueue.__init__] and [make_dbm] *)

(** The part of the operating system the constructor talks to.
    [permitted p] is the set of access bits ([R_OK], [W_OK], [X_OK]) the
    process holds on path [p]; [metadata_shelf p] and [frames_shelf p] are
    the contents of the shelf files at [p] (empty when there is no file,
    since [shelve.open] creates it); [opened] lists the shelves opened so
    far, most recent first. *)
Record OS : Type := mkOS {
  path_exists : string -> bool;
  permitted : string -> Z;
  metadata_shelf : string -> gmap string Entry.t;
  frames_shelf : string -> gmap string Frame;
  opened : list string
}.

Definition R_OK : Z := 4.
Definition W_OK : Z := 2.

(** [os.access(path, mode)]: the path exists and every bit of [mode] is
    granted. *)
Definition os_access (os : OS) (path : string) (mode : Z) : bool :=
  path_exists os path && (Z.land (permitted os path) mode =? mode).

(** [os.path.join(a, b)] for a relative [b] *)
Fixpoint ends_with_slash (a : string) : bool :=
  match a with
  | EmptyString => true
  | String c EmptyString => bool_decide (c = "/"%char)
  | String _ rest => ends_with_slash rest
  end.

Definition path_join (a b : string) : string :=
  if ends_with_slash a then (a +:+ b)%string else (a +:+ "/" +:+ b)%string.

Definition shelve_open (path : string) (os : OS) : OS :=
  mkOS (path_exists os) (permitted os) (metadata_shelf os) (frames_shelf os)
    (path :: opened os).

(** [DbmQueue.__init__] (lines 107-126); [now] is the reading of
    [datetime.now()] at line 114.  [timedelta(seconds=n)] is [n] million
    microseconds. *)
Definition __init__ (now : Z) (data_dir : string)
    (checkpoint_operations checkpoint_timeout : option Z) (os : OS) : OS * DbmQueue :=
  let checkpoint_operations := default 100 checkpoint_operations in
  let checkpoint_timeout := default 20 checkpoint_timeout in
  let metadata_path := path_join data_dir "metadata" in
  let frames_path := path_join data_dir "frames" in
  let os1 := shelve_open metadata_path os in
  let os2 := shelve_open frames_path os1 in
  (os2,
   mkDbmQueue data_dir (metadata_shelf os metadata_path) (frames_shelf os frames_path)
     0 now checkpoint_operations (checkpoint_timeout * 1000000)
     (metadata_shelf os metadata_path) 0).

(** The values [config.get('coilmq', ...)] returns for the three options
    [make_dbm] reads.  [coilmq.config] is not part of this module, so they
    are taken as given. *)
Record Config : Type := mkConfig {
  store_dbm_data_dir : option string;
  store_dbm_checkpoint_operations : option Z;
  store_dbm_checkpoint_timeout : option Z
}.

(** [make_dbm] (lines 42-54) *)
Definition make_dbm (now : Z) (config : Config) (os : OS) : OS * outcome DbmQueue :=
  match truthy (store_dbm_data_dir config) with
  | None => (os, Raised (ConfigError "Missing configuration parameter: store.dbm.data_dir"))
  | Some data_dir =>
      if negb (path_exists os data_dir) then
        (os, Raised (ConfigError ("DBM directory does not exist: " +:+ data_dir)))
      else if negb (os_access os data_dir (Z.lor W_OK R_OK)) then
        (os, Raised (ConfigError ("Cannot read and write DBM directory: " +:+ data_dir)))
      else
        let cp_ops := store_dbm_checkpoint_operations config in
        let cp_timeout := store_dbm_checkpoint_timeout config in
        let '(os', store) := __init__ now data_dir cp_ops cp_timeout os in
        (os', Returned store)
  end.

(** ** Sequences of calls *)

Inductive call : Type :=
  | Enqueue (now now' : Z) (destination : string) (frame : Frame)
  | Dequeue (now now' : Z) (destination : string)
  | HasFrames (destination : string)
  | Size (destination : string).

(** The store after one call (whether it returned or raised). *)
Definition after (c : call) (self : DbmQueue) : DbmQueue :=
  match c with
  | Enqueue now now' d f => (enqueue now now' d f self).1
  | Dequeue now now' d => (dequeue now now' d self).1
  | HasFrames d => (has_frames d self).1
  | Size d => (size d self).1
  end.

Definition run (calls : list call) (self : DbmQueue) : DbmQueue :=
  foldl (fun s c => after c s) self calls.

(** A directory with no shelf files in it yet. *)
Definition empty_os : OS :=
  mkOS (fun _ => true) (fun _ => 7) (fun _ => ∅) (fun _ => ∅) [].

(** The store [__init__] builds on such a directory. *)
Definition new_store (now : Z) (dir : string) (cp_ops cp_timeout : option Z) : DbmQueue :=
  (__init__ now dir cp_ops cp_timeout empty_os).2.

Definition frame_of (id : string) : Frame := mkFrame (Some id) ("body of " +:+ id).

Example scenario_1 :
  let s0 := new_store 0 "/var/coilmq" None None in
  let q := "/queue/a"%string in
  let s1 := (enqueue 1 1 q (frame_of "1") s0).1 in
  let s2 := (enqueue 2 2 q (frame_of "2") s1).1 in
  let s3 := (enqueue 3 3 q (frame_of "3") s2).1 in
  let r4 := dequeue 4 4 q s3 in
  let r5 := dequeue 5 5 q r4.1 in
  let r6 := dequeue 6 6 q r5.1 in
  (r4.2, r5.2, r6.2, (size q r6.1).2) =
  (Returned (Some (frame_of "1")), Returned (Some (frame_of "2")),
   Returned (Some (frame_of "3")), Returned 0).
Proof. vm_compute. reflexivity. Qed.

(** ** Closed forms of the two mutating methods *)

(** The entry after lines 147-148. *)
Definition pushed (id : string) (e : Entry.t) : Entry.t :=
  Entry.mk (id :: Entry.frames e) (Entry.enqueued e + 1) (Entry.dequeued e) (Entry.size e).

(** The entry after lines 169-170, [rest] being the deque after [pop()]. *)
Definition popped (rest : list string) (e : Entry.t) : Entry.t :=
  Entry.mk rest (Entry.enqueued e) (Entry.dequeued e + 1) (Entry.size e).

(** The store on entry to [_sync] at line 153. *)
Definition enqueue_body (d id : string) (f : Frame) (s : DbmQueue) : DbmQueue :=
  mkDbmQueue (data_dir s)
    (<[d := pushed id (default Entry.new (queue_metadata s !! d))]> (queue_metadata s))
    (<[id := f]> (frame_store s))
    (_opcount s + 1) (_last_sync s) (checkpoint_operations s) (checkpoint_timeout s)
    (match queue_metadata s !! d with
     | Some _ => metadata_db s
     | None => <[d := Entry.new]> (metadata_db s)
     end)
    (sync_calls s).

(** The store on entry to [_sync] at line 176. *)
Definition dequeue_body (d id : string) (rest : list string) (e : Entry.t)
    (s : DbmQueue) : DbmQueue :=
  mkDbmQueue (data_dir s)
    (<[d := popped rest e]> (queue_metadata s))
    (delete id (frame_store s))
    (_opcount s + 1) (_last_sync s) (checkpoint_operations s) (checkpoint_timeout s)
    (metadata_db s) (sync_calls s).

(** The store when line 172 raises. *)
Definition dequeue_torn (d : string) (rest : list string) (e : Entry.t)
    (s : DbmQueue) : DbmQueue :=
  set_queue_metadata (<[d := popped rest e]> (queue_metadata s)) s.

Ltac unfold_methods :=
  unfold enqueue, dequeue, metadata_pop, metadata_mutate, metadata_setitem,
    metadata_getitem, frame_store_setitem, frame_store_getitem,
    frame_store_delitem, has_frames, size, bind, gets, modify, ret, raise,
    set_queue_metadata, set_frame_store, set_opcount, set_last_sync,
    set_metadata_db, set_sync_calls in *; simpl in *.

Lemma enqueue_unfold now now' d f id s :
  truthy (message_id f) = Some id ->
  enqueue now now' d f s = _sync now now' (enqueue_body d id f s).
Proof.
  intros Hid. unfold enqueue. rewrite Hid. unfold enqueue_body, pushed.
  unfold_methods.
  destruct (queue_metadata s !! d) as [e|] eqn:Hd; simpl;
    repeat (rewrite ?Hd, ?lookup_insert_eq, ?insert_insert_eq; simpl);
    reflexivity.
Qed.

Lemma enqueue_invalid now now' d f s :
  truthy (message_id f) = None ->
  enqueue now now' d f s =
  (s, Raised (ValueError "Cannot queue a frame without message-id set.")).
Proof. intros Hid. unfold enqueue. rewrite Hid. reflexivity. Qed.

Lemma dequeue_nothing now now' d s :
  (has_frames d s).2 = Returned false ->
  dequeue now now' d s = (s, Returned None).
Proof.
  unfold dequeue, has_frames, bind, ret.
  destruct (queue_metadata s !! d) as [e|]; simpl; [|reflexivity].
  destruct (nonempty (Entry.frames e)); simpl; [discriminate|reflexivity].
Qed.

Lemma pop_nonempty {A} (dq : list A) :
  nonempty dq = true -> exists x rest, pop dq = Some (x, rest).
Proof.
  destruct dq as [|a dq]; [discriminate|]. intros _. simpl.
  destruct (pop dq) as [[y r]|]; eauto.
Qed.

Lemma pop_Some_nonempty {A} (dq : list A) x rest :
  pop dq = Some (x, rest) -> nonempty dq = true.
Proof. destruct dq; [discriminate|reflexivity]. Qed.

Lemma pop_snoc {A} (dq : list A) (x : A) : pop (dq ++ [x]) = Some (x, dq).
Proof.
  induction dq as [|a dq IH]; simpl; [reflexivity|]. rewrite IH. reflexivity.
Qed.

Lemma pop_Some {A} (dq : list A) x rest :
  pop dq = Some (x, rest) <-> dq = rest ++ [x].
Proof.
  split; [|intros ->; apply pop_snoc].
  revert x rest. induction dq as [|a dq IH]; intros x rest; simpl; [discriminate|].
  destruct (pop dq) as [[y r]|] eqn:Hp.
  - intros [= <- <-]. rewrite (IH y r eq_refl). reflexivity.
  - intros [= <- <-]. destruct dq as [|b dq]; [reflexivity|].
    simpl in Hp. destruct (pop dq) as [[? ?]|]; discriminate.
Qed.

Lemma dequeue_unfold now now' d s e id rest f :
  queue_metadata s !! d = Some e ->
  pop (Entry.frames e) = Some (id, rest) ->
  frame_store s !! id = Some f ->
  dequeue now now' d s =
  ((_sync now now' (dequeue_body d id rest e s)).1, Returned (Some f)).
Proof.
  intros Hd Hp Hf. unfold dequeue_body, popped. unfold_methods.
  rewrite Hd. simpl. rewrite (pop_Some_nonempty _ _ _ Hp). simpl.
  rewrite Hd, Hp. simpl. rewrite lookup_insert_eq. simpl.
  rewrite Hf. simpl. rewrite Hf. simpl. rewrite insert_insert_eq.
  unfold _sync. simpl.
  destruct (_ || _); reflexivity.
Qed.

Lemma dequeue_raises now now' d s e id rest :
  queue_metadata s !! d = Some e ->
  pop (Entry.frames e) = Some (id, rest) ->
  frame_store s !! id = None ->
  dequeue now now' d s = (dequeue_torn d rest e s, Raised (KeyError id)).
Proof.
  intros Hd Hp Hf. unfold dequeue_torn, popped. unfold_methods.
  rewrite Hd. simpl. rewrite (pop_Some_nonempty _ _ _ Hp). simpl.
  rewrite Hd, Hp. simpl. rewrite lookup_insert_eq. simpl.
  rewrite Hf. simpl. rewrite insert_insert_eq. reflexivity.
Qed.

(** ** What [_sync] leaves alone *)

Lemma sync_returns now now' s : (_sync now now' s).2 = Returned tt.
Proof. unfold _sync. destruct (_ || _); reflexivity. Qed.

Lemma sync_queue_metadata now now' s :
  queue_metadata (_sync now now' s).1 = queue_metadata s.
Proof. unfold _sync. destruct (_ || _); reflexivity. Qed.

Lemma sync_frame_store now now' s :
  frame_store (_sync now now' s).1 = frame_store s.
Proof. unfold _sync. destruct (_ || _); reflexivity. Qed.

Lemma sync_thresholds now now' s :
  checkpoint_operations (_sync now now' s).1 = checkpoint_operations s /\
  checkpoint_timeout (_sync now now' s).1 = checkpoint_timeout s.
Proof. unfold _sync. destruct (_ || _); split; reflexivity. Qed.

(** ** Every way a call can go *)

Lemma truthy_Some o id : truthy o = Some id <-> o = Some id /\ id <> EmptyString.
Proof.
  unfold truthy. destruct o as [x|]; [case_decide as Hx|]; split.
  - discriminate.
  - intros [[= <-] Hne]. contradiction.
  - intros [= <-]. auto.
  - intros [[= <-] _]. reflexivity.
  - discriminate.
  - intros [? _]. discriminate.
Qed.

Lemma truthy_None o : truthy o = None <-> o = None \/ o = Some EmptyString.
Proof.
  unfold truthy. destruct o as [x|]; [case_decide as Hx|]; split; auto.
  - intros _. right. congruence.
  - intros [?|[= ->]]; [discriminate|contradiction].
Qed.

Lemma enqueue_returns now now' d f id s :
  truthy (message_id f) = Some id ->
  (enqueue now now' d f s).2 = Returned tt.
Proof. intros H. rewrite (enqueue_unfold _ _ _ _ _ _ H). apply sync_returns. Qed.

Lemma enqueue_queue_metadata now now' d f id s :
  truthy (message_id f) = Some id ->
  queue_metadata (enqueue now now' d f s).1 =
  <[d := pushed id (default Entry.new (queue_metadata s !! d))]> (queue_metadata s).
Proof.
  intros H. rewrite (enqueue_unfold _ _ _ _ _ _ H), sync_queue_metadata. reflexivity.
Qed.

Lemma enqueue_frame_store now now' d f id s :
  truthy (message_id f) = Some id ->
  frame_store (enqueue now now' d f s).1 = <[id := f]> (frame_store s).
Proof.
  intros H. rewrite (enqueue_unfold _ _ _ _ _ _ H), sync_frame_store. reflexivity.
Qed.

Lemma has_frames_false d s :
  (has_frames d s).2 = Returned false <->
  queue_metadata s !! d = None \/
  exists e, queue_metadata s !! d = Some e /\ Entry.frames e = [].
Proof.
  unfold has_frames. destruct (queue_metadata s !! d) as [e|]; simpl.
  - destruct (Entry.frames e) as [|x l] eqn:He; simpl; split.
    + intros _. right. eauto.
    + reflexivity.
    + discriminate.
    + intros [?|(e' & [= <-] & Hnil)]; [discriminate|]. rewrite He in Hnil. discriminate.
  - split; auto.
Qed.

Lemma has_frames_true d s :
  (has_frames d s).2 = Returned true <->
  exists e id rest, queue_metadata s !! d = Some e /\ Entry.frames e = rest ++ [id].
Proof.
  unfold has_frames. destruct (queue_metadata s !! d) as [e|]; simpl; split.
  - intros [= Hne]. destruct (pop_nonempty _ Hne) as (x & rest & Hp).
    apply pop_Some in Hp. eauto.
  - intros (e' & id & rest & [= <-] & ->). destruct rest; reflexivity.
  - discriminate.
  - intros (? & ? & ? & ? & _). discriminate.
Qed.

Lemma has_frames_pure d s : (has_frames d s).1 = s.
Proof. unfold has_frames. destruct (_ !! _); reflexivity. Qed.

Lemma size_pure d s : (size d s).1 = s.
Proof. unfold size. destruct (_ !! _); reflexivity. Qed.

(** The three ways [dequeue] can go. *)
Inductive dequeue_case (now now' : Z) (d : string) (s : DbmQueue) : Prop :=
  | deq_nothing :
      (has_frames d s).2 = Returned false ->
      dequeue now now' d s = (s, Returned None) ->
      dequeue_case now now' d s
  | deq_frame e id rest f :
      queue_metadata s !! d = Some e ->
      Entry.frames e = rest ++ [id] ->
      frame_store s !! id = Some f ->
      dequeue now now' d s =
        ((_sync now now' (dequeue_body d id rest e s)).1, Returned (Some f)) ->
      dequeue_case now now' d s
  | deq_key_error e id rest :
      queue_metadata s !! d = Some e ->
      Entry.frames e = rest ++ [id] ->
      frame_store s !! id = None ->
      dequeue now now' d s = (dequeue_torn d rest e s, Raised (KeyError id)) ->
      dequeue_case now now' d s.

Lemma dequeue_cases now now' d s : dequeue_case now now' d s.
Proof.
  destruct (has_frames d s).2 as [[|]|] eqn:Hh.
  - apply has_frames_true in Hh as (e & id & rest & Hd & Hfr).
    assert (Hp : pop (Entry.frames e) = Some (id, rest)) by (apply pop_Some; exact Hfr).
    destruct (frame_store s !! id) as [f|] eqn:Hf.
    + eapply deq_frame; eauto using dequeue_unfold.
    + eapply deq_key_error; eauto using dequeue_raises.
  - apply deq_nothing; [exact Hh|]. apply dequeue_nothing. exact Hh.
  - unfold has_frames in Hh. destruct (_ !! _); discriminate.
Qed.

Lemma dequeue_frame now now' d s e id rest f :
  queue_metadata s !! d = Some e ->
  Entry.frames e = rest ++ [id] ->
  frame_store s !! id = Some f ->
  (dequeue now now' d s).2 = Returned (Some f) /\
  queue_metadata (dequeue now now' d s).1 = <[d := popped rest e]> (queue_metadata s) /\
  frame_store (dequeue now now' d s).1 = delete id (frame_store s).
Proof.
  intros Hd Hfr Hf. apply pop_Some in Hfr.
  rewrite (dequeue_unfold _ _ _ _ _ _ _ _ Hd Hfr Hf). simpl.
  rewrite sync_queue_metadata, sync_frame_store. auto.
Qed.

(** * Properties of the storage contract *)

(** ** Validation of the message id *)

(** C3. [enqueue] of a frame whose [message_id] is missing or empty raises
    [ValueError] and returns the store exactly as it found it: no metadata
    entry is created, no counter moves, the frame archive and the
    operation count are untouched, and [size] answers as before. *)
Theorem enqueue_without_id_rejected now now' d f s :
  message_id f = None \/ message_id f = Some EmptyString ->
  (exists msg, enqueue now now' d f s = (s, Raised (ValueError msg))) /\
  size d (enqueue now now' d f s).1 = size d s.
Proof.
  intros H. apply truthy_None in H. rewrite (enqueue_invalid _ _ _ _ _ H).
  split; [eexists; reflexivity|reflexivity].
Qed.

Lemma enqueue_without_id_rejected_witness :
  (exists msg,
     enqueue 1 1 "/queue/d" (mkFrame (Some EmptyString) "x")
       (new_store 0 "/var/coilmq" None None) =
     (new_store 0 "/var/coilmq" None None, Raised (ValueError msg))) /\
  size "/queue/d"
    (enqueue 1 1 "/queue/d" (mkFrame (Some EmptyString) "x")
       (new_store 0 "/var/coilmq" None None)).1 =
  size "/queue/d" (new_store 0 "/var/coilmq" None None).
Proof.
  apply (enqueue_without_id_rejected 1 1 "/queue/d"
           (mkFrame (Some EmptyString) "x") (new_store 0 "/var/coilmq" None None)).
  right. reflexivity.
Defined.

(** ** Dequeue on an empty queue *)

(** C4. When the destination is unknown, or known with an empty deque,
    [dequeue] returns [None] and the store is exactly the one it was
    given: counters, metadata, archive and operation count unchanged. *)
Theorem dequeue_empty_returns_nothing now now' d s :
  (queue_metadata s !! d = None \/
   exists e, queue_metadata s !! d = Some e /\ Entry.frames e = []) ->
  dequeue now now' d s = (s, Returned None).
Proof. intros H. apply dequeue_nothing, has_frames_false, H. Qed.

Lemma dequeue_empty_returns_nothing_witness :
  dequeue 1 1 "/queue/b" (new_store 0 "/var/coilmq" None None) =
  (new_store 0 "/var/coilmq" None None, Returned None).
Proof.
  apply (dequeue_empty_returns_nothing 1 1 "/queue/b"
           (new_store 0 "/var/coilmq" None None)).
  left. reflexivity.
Defined.

(** ** [has_frames] against [size] *)

Definition enqueues_to (d : string) (c : call) : Prop :=
  match c with
  | Enqueue _ _ d' _ => d' = d
  | _ => False
  end.

Lemma has_frames_size d s :
  exists b n,
    has_frames d s = (s, Returned b) /\ size d s = (s, Returned n) /\
    (b = true <-> 0 < n).
Proof.
  unfold has_frames, size. destruct (queue_metadata s !! d) as [e|].
  - do 2 eexists. split; [reflexivity|]. split; [reflexivity|].
    destruct (Entry.frames e); simpl; split; (discriminate || lia || reflexivity).
  - exists false, 0. split; [reflexivity|]. split; [reflexivity|].
    split; (discriminate || lia).
Qed.

Lemma dequeue_queue_metadata_other now now' d d' s :
  queue_metadata s !! d' = None ->
  queue_metadata (dequeue now now' d s).1 !! d' = None.
Proof.
  intros Hn.
  destruct (dequeue_cases now now' d s) as [_ ->|e id rest f Hd _ _ ->|e id rest Hd _ _ ->];
    simpl; [assumption| |].
  - rewrite sync_queue_metadata. simpl.
    rewrite lookup_insert_ne; [assumption|congruence].
  - rewrite lookup_insert_ne; [assumption|congruence].
Qed.

Lemma after_unknown d c s :
  ~ enqueues_to d c ->
  queue_metadata s !! d = None ->
  queue_metadata (after c s) !! d = None.
Proof.
  intros Hc Hn. destruct c as [now now' d' f|now now' d'|d'|d']; simpl in *.
  - destruct (truthy (message_id f)) as [id|] eqn:Hid.
    + rewrite (enqueue_queue_metadata _ _ _ _ _ _ Hid).
      rewrite lookup_insert_ne; [assumption|exact Hc].
    + rewrite (enqueue_invalid _ _ _ _ _ Hid). assumption.
  - apply dequeue_queue_metadata_other, Hn.
  - rewrite has_frames_pure. assumption.
  - rewrite size_pure. assumption.
Qed.

Lemma run_snoc calls c s : run (calls ++ [c]) s = after c (run calls s).
Proof. unfold run. rewrite foldl_snoc. reflexivity. Qed.

Lemma run_unknown d calls s :
  Forall (fun c => ~ enqueues_to d c) calls ->
  queue_metadata s !! d = None ->
  queue_metadata (run calls s) !! d = None.
Proof.
  intros Hall. revert s. induction Hall as [|c calls Hc _ IH]; intros s Hn.
  - exact Hn.
  - simpl. apply IH, after_unknown; assumption.
Qed.

(** C5. After any sequence of calls, on any store, [has_frames d] answers
    true exactly when [size d] answers a positive number, and neither call
    changes the store.  On a store built on an empty directory, a
    destination to which no [enqueue] was addressed gets [False] and 0. *)
Theorem has_frames_iff_size_positive calls s0 d :
  let s := run calls s0 in
  (exists b n,
     has_frames d s = (s, Returned b) /\ size d s = (s, Returned n) /\
     (b = true <-> 0 < n)) /\
  (forall now dir cp_ops cp_timeout,
     s0 = new_store now dir cp_ops cp_timeout ->
     Forall (fun c => ~ enqueues_to d c) calls ->
     has_frames d s = (s, Returned false) /\ size d s = (s, Returned 0)).
Proof.
  intros s. split; [apply has_frames_size|].
  intros now dir cp_ops cp_timeout -> Hall.
  assert (Hn : queue_metadata s !! d = None).
  { apply run_unknown; [exact Hall|]. apply lookup_empty. }
  unfold has_frames, size. rewrite Hn. split; reflexivity.
Qed.

Lemma has_frames_iff_size_positive_witness :
  let s := run [Enqueue 1 1 "/queue/a" (frame_of "1")]
             (new_store 0 "/var/coilmq" None None) in
  has_frames "/queue/b" s = (s, Returned false) /\
  size "/queue/b" s = (s, Returned 0).
Proof.
  apply (proj2 (has_frames_iff_size_positive
                  [Enqueue 1 1 "/queue/a" (frame_of "1")]
                  (new_store 0 "/var/coilmq" None None) "/queue/b")
           0 "/var/coilmq"%string None None eq_refl).
  repeat constructor. simpl. discriminate.
Defined.

(** ** The checkpoint policy *)

(** An [enqueue] or [dequeue] that runs to its last line: [enqueue]
    returns, [dequeue] returns a frame.  The other calls, and the early
    exits of these two, never reach [_sync]. *)
Definition completes (c : call) (s : DbmQueue) : Prop :=
  match c with
  | Enqueue now now' d f => (enqueue now now' d f s).2 = Returned tt
  | Dequeue now now' d => exists f, (dequeue now now' d s).2 = Returned (Some f)
  | HasFrames _ | Size _ => False
  end.

(** The two readings of the clock a call passes to [_sync]. *)
Definition readings (c : call) : option (Z * Z) :=
  match c with
  | Enqueue now now' _ _ | Dequeue now now' _ => Some (now, now')
  | HasFrames _ | Size _ => None
  end.


Lemma sync_flushes now now' s :
  _opcount s > checkpoint_operations s \/ now > _last_sync s + checkpoint_timeout s ->
  _sync now now' s =
  (mkDbmQueue (data_dir s) (queue_metadata s) (frame_store s) 0 now'
     (checkpoint_operations s) (checkpoint_timeout s) (queue_metadata s)
     (S (sync_calls s)), Returned tt).
Proof.
  intros H. unfold _sync.
  destruct (_ || _) eqn:E; [reflexivity|].
  apply orb_false_iff in E as [E1 E2]. lia.
Qed.

Lemma sync_skips now now' s :
  ~ (_opcount s > checkpoint_operations s \/ now > _last_sync s + checkpoint_timeout s) ->
  _sync now now' s = (s, Returned tt).
Proof.
  intros H. unfold _sync.
  destruct (_ || _) eqn:E; [|reflexivity].
  apply orb_true_iff in E. lia.
Qed.




(** ** Construction *)

Lemma land_6 p : (Z.land p 6 =? 6) = (Z.land p 4 =? 4) && (Z.land p 2 =? 2).
Proof.
  assert (B : forall m, Z.testbit (Z.land p m) 1 = Z.testbit p 1 && Z.testbit m 1 /\
                        Z.testbit (Z.land p m) 2 = Z.testbit p 2 && Z.testbit m 2).
  { intros m. split; apply Z.land_spec. }
  assert (E6 : Z.land p 6 = 6 <-> Z.testbit p 1 = true /\ Z.testbit p 2 = true).
  { split.
    - intros E. destruct (B 6) as [B1 B2]. rewrite E in B1, B2.
      change (Z.testbit 6 1) with true in B1. change (Z.testbit 6 2) with true in B2.
      rewrite andb_true_r in B1, B2. auto.
    - intros [H1 H2]. apply Z.bits_inj'. intros n Hn. rewrite Z.land_spec.
      destruct (Z.eq_dec n 1) as [->|N1]; [rewrite H1; reflexivity|].
      destruct (Z.eq_dec n 2) as [->|N2]; [rewrite H2; reflexivity|].
      assert (Z.testbit 6 n = false) as ->; [|apply andb_false_r].
      destruct (Z.eq_dec n 0) as [->|N0]; [reflexivity|].
      apply Z.bits_above_log2; [lia|]. change (Z.log2 6) with 2. lia. }
  assert (E4 : Z.land p 4 = 4 <-> Z.testbit p 2 = true).
  { split.
    - intros E. destruct (B 4) as [_ B2]. rewrite E in B2.
      change (Z.testbit 4 2) with true in B2. rewrite andb_true_r in B2. auto.
    - intros H2. apply Z.bits_inj'. intros n Hn. rewrite Z.land_spec.
      destruct (Z.eq_dec n 2) as [->|N2]; [rewrite H2; reflexivity|].
      assert (Z.testbit 4 n = false) as ->; [|apply andb_false_r].
      destruct (Z.eq_dec n 0) as [->|N0]; [reflexivity|].
      destruct (Z.eq_dec n 1) as [->|N1]; [reflexivity|].
      apply Z.bits_above_log2; [lia|]. change (Z.log2 4) with 2. lia. }
  assert (E2 : Z.land p 2 = 2 <-> Z.testbit p 1 = true).
  { split.
    - intros E. destruct (B 2) as [B1 _]. rewrite E in B1.
      change (Z.testbit 2 1) with true in B1. rewrite andb_true_r in B1. auto.
    - intros H1. apply Z.bits_inj'. intros n Hn. rewrite Z.land_spec.
      destruct (Z.eq_dec n 1) as [->|N1]; [rewrite H1; reflexivity|].
      assert (Z.testbit 2 n = false) as ->; [|apply andb_false_r].
      destruct (Z.eq_dec n 0) as [->|N0]; [reflexivity|].
      apply Z.bits_above_log2; [lia|]. change (Z.log2 2) with 1. lia. }
  destruct (Z.eqb_spec (Z.land p 6) 6) as [H6|H6];
    destruct (Z.eqb_spec (Z.land p 4) 4) as [H4|H4];
    destruct (Z.eqb_spec (Z.land p 2) 2) as [H2|H2]; simpl; try reflexivity;
    exfalso; tauto.
Qed.

(** Asking [os.access] for [W_OK | R_OK] asks for both permissions. *)
Lemma os_access_read_write os path :
  os_access os path (Z.lor W_OK R_OK) =
  os_access os path R_OK && os_access os path W_OK.
Proof.
  unfold os_access. change (Z.lor W_OK R_OK) with 6.
  change R_OK with 4. change W_OK with 2. rewrite land_6.
  destruct (path_exists os path); reflexivity.
Qed.

(** The data directory [make_dbm] would reject. *)
Definition bad_data_dir (config : Config) (os : OS) : Prop :=
  store_dbm_data_dir config = None \/
  store_dbm_data_dir config = Some EmptyString \/
  exists dir, store_dbm_data_dir config = Some dir /\
    (path_exists os dir = false \/
     ~ (os_access os dir R_OK = true /\ os_access os dir W_OK = true)).

(** C8. When the configured data directory is missing or empty, does not
    exist, or is not both readable and writable, [make_dbm] raises
    [ConfigError] without opening any shelf and without building a
    store.  In every other case it opens the two shelves, metadata first,
    and returns the store. *)
Theorem make_dbm_validates_data_dir now config os :
  (bad_data_dir config os ->
   (exists msg, make_dbm now config os = (os, Raised (ConfigError msg))) /\
   opened (make_dbm now config os).1 = opened os) /\
  (~ bad_data_dir config os ->
   exists dir store,
     store_dbm_data_dir config = Some dir /\
     (make_dbm now config os).2 = Returned store /\
     opened (make_dbm now config os).1 =
       path_join dir "frames" :: path_join dir "metadata" :: opened os).
Proof.
  unfold bad_data_dir, make_dbm.
  destruct (truthy (store_dbm_data_dir config)) as [dir|] eqn:Hd.
  - apply truthy_Some in Hd as [Hd Hne]. rewrite Hd.
    rewrite os_access_read_write.
    destruct (path_exists os dir) eqn:He; simpl.
    + destruct (os_access os dir R_OK) eqn:Hr; simpl;
        [destruct (os_access os dir W_OK) eqn:Hw; simpl|].
      * split.
        -- intros [?|[[= ?]|(dir' & [= <-] & [?|Hn])]]; try congruence.
           exfalso. apply Hn. auto.
        -- intros _. do 2 eexists. repeat split.
      * split; [intros _; split; [eexists|]; reflexivity|].
        intros Hn. exfalso. apply Hn. right. right. exists dir.
        split; [reflexivity|]. right. intros [_ ?]. congruence.
      * split; [intros _; split; [eexists|]; reflexivity|].
        intros Hn. exfalso. apply Hn. right. right. exists dir.
        split; [reflexivity|]. right. intros [? _]. congruence.
    + split; [intros _; split; [eexists|]; reflexivity|].
      intros Hn. exfalso. apply Hn. right. right. exists dir. auto.
  - apply truthy_None in Hd. split; [intros _; split; [eexists|]; reflexivity|].
    intros Hn. exfalso. apply Hn. destruct Hd; auto.
Qed.

(** A directory the process may read but not write. *)
Definition read_only_os : OS :=
  mkOS (fun _ => true) (fun _ => 5) (fun _ => ∅) (fun _ => ∅) [].

Lemma make_dbm_validates_data_dir_witness :
  (exists msg,
     make_dbm 0 (mkConfig (Some "/var/coilmq"%string) None None) read_only_os =
     (read_only_os, Raised (ConfigError msg))) /\
  opened (make_dbm 0 (mkConfig (Some "/var/coilmq"%string) None None) read_only_os).1 =
  opened read_only_os.
Proof.
  apply (proj1 (make_dbm_validates_data_dir 0
                  (mkConfig (Some "/var/coilmq"%string) None None) read_only_os)).
  right. right. exists "/var/coilmq"%string. split; [reflexivity|].
  right. intros [_ H]. vm_compute in H. discriminate.
Defined.

(** ** The ['size'] key of a metadata entry *)

(** Between two stores, every entry kept its ['size'] value and every new
    entry has 0 there. *)
Definition size_field_kept (s s' : DbmQueue) : Prop :=
  forall d e', queue_metadata s' !! d = Some e' ->
    match queue_metadata s !! d with
    | Some e => Entry.size e' = Entry.size e
    | None => Entry.size e' = 0
    end.

Lemma size_field_kept_refl s : size_field_kept s s.
Proof. intros d e' H. rewrite H. reflexivity. Qed.

Lemma size_field_kept_insert s s' d0 e0 f :
  queue_metadata s !! d0 = Some e0 ->
  queue_metadata s' = <[d0 := f e0]> (queue_metadata s) ->
  Entry.size (f e0) = Entry.size e0 ->
  size_field_kept s s'.
Proof.
  intros H0 Hs' Hf d e'. rewrite Hs'.
  destruct (decide (d0 = d)) as [<-|Hne].
  - rewrite lookup_insert_eq. intros [= <-]. rewrite H0. exact Hf.
  - rewrite lookup_insert_ne by exact Hne. intros H. rewrite H. reflexivity.
Qed.

Lemma after_size_field_kept c s : size_field_kept s (after c s).
Proof.
  destruct c as [now now' d0 f|now now' d0|d0|d0]; simpl.
  - destruct (truthy (message_id f)) as [id|] eqn:Hid.
    + intros d e'. rewrite (enqueue_queue_metadata _ _ _ _ _ _ Hid).
      destruct (decide (d0 = d)) as [<-|Hne].
      * rewrite lookup_insert_eq. intros [= <-].
        destruct (queue_metadata s !! d0); reflexivity.
      * rewrite lookup_insert_ne by exact Hne. intros H. rewrite H. reflexivity.
    + rewrite (enqueue_invalid _ _ _ _ _ Hid). apply size_field_kept_refl.
  - destruct (dequeue_cases now now' d0 s)
      as [_ ->|e id rest f Hd _ _ ->|e id rest Hd _ _ ->]; simpl.
    + apply size_field_kept_refl.
    + eapply (size_field_kept_insert _ _ d0 e (popped rest)); [exact Hd| |reflexivity].
      rewrite sync_queue_metadata. reflexivity.
    + eapply (size_field_kept_insert _ _ d0 e (popped rest)); [exact Hd| |reflexivity].
      reflexivity.
  - rewrite has_frames_pure. apply size_field_kept_refl.
  - rewrite size_pure. apply size_field_kept_refl.
Qed.

Lemma run_size_field_zero calls s :
  (forall d e, queue_metadata s !! d = Some e -> Entry.size e = 0) ->
  forall d e, queue_metadata (run calls s) !! d = Some e -> Entry.size e = 0.
Proof.
  revert s. induction calls as [|c calls IH]; intros s Hs; [exact Hs|].
  simpl. apply IH. intros d e' He'.
  pose proof (after_size_field_kept c s d e' He') as K.
  destruct (queue_metadata s !! d) as [e|] eqn:Hd; [|exact K].
  rewrite K. eapply Hs, Hd.
Qed.

(** C9. The ['size'] key of a metadata entry is 0 when [enqueue] creates
    the entry and no call of [enqueue], [dequeue], [has_frames] or [size]
    changes it afterwards, so on a store built on an empty directory it is
    0 in every entry for ever; and what [size] answers does not depend on
    it. *)
Theorem size_field_never_updated :
  (forall c s, size_field_kept s (after c s)) /\
  (forall calls now dir cp_ops cp_timeout d e,
     queue_metadata (run calls (new_store now dir cp_ops cp_timeout)) !! d = Some e ->
     Entry.size e = 0) /\
  (forall s d e v,
     queue_metadata s !! d = Some e ->
     (size d (set_queue_metadata
                (<[d := Entry.set_size v e]> (queue_metadata s)) s)).2 =
     (size d s).2).
Proof.
  split; [exact after_size_field_kept|]. split.
  - intros calls now dir cp_ops cp_timeout. apply run_size_field_zero.
    intros d e H. simpl in H. rewrite lookup_empty in H. discriminate.
  - intros s d e v Hd. unfold size. simpl.
    rewrite lookup_insert_eq, Hd. reflexivity.
Qed.

Lemma size_field_never_updated_witness :
  let s := run [Enqueue 1 1 "/queue/a" (frame_of "1");
                Enqueue 2 2 "/queue/a" (frame_of "2");
                Dequeue 3 3 "/queue/a"]
             (new_store 0 "/var/coilmq" None None) in
  Entry.size (Entry.mk ["2"%string] 2 1 0) = 0 /\
  (size "/queue/a"
     (set_queue_metadata
        (<["/queue/a"%string := Entry.set_size 7 (Entry.mk ["2"%string] 2 1 0)]>
           (queue_metadata s)) s)).2 =
  (size "/queue/a" s).2.
Proof.
  intros s. split.
  - apply (proj1 (proj2 size_field_never_updated)
             [Enqueue 1 1 "/queue/a" (frame_of "1");
              Enqueue 2 2 "/queue/a" (frame_of "2");
              Dequeue 3 3 "/queue/a"]
             0 "/var/coilmq"%string None None "/queue/a"%string).
    vm_compute. reflexivity.
  - apply (proj2 (proj2 size_field_never_updated) s "/queue/a"%string).
    vm_compute. reflexivity.
Defined.

(** ** First in, first out *)

(** A destination with nothing pending: unknown, or known with an empty
    deque. *)
Definition nothing_pending (d : string) (s : DbmQueue) : Prop :=
  queue_metadata s !! d = None \/
  exists e, queue_metadata s !! d = Some e /\ Entry.frames e = [].

Lemma nothing_pending_default d s :
  nothing_pending d s ->
  Entry.frames (default Entry.new (queue_metadata s !! d)) = [].
Proof. intros [->|(e & -> & He)]; [reflexivity|exact He]. Qed.

Lemma enqueue_entry now now' d f id s :
  truthy (message_id f) = Some id ->
  queue_metadata (enqueue now now' d f s).1 !! d =
  Some (pushed id (default Entry.new (queue_metadata s !! d))).
Proof.
  intros H. rewrite (enqueue_queue_metadata _ _ _ _ _ _ H). apply lookup_insert_eq.
Qed.

(** [dequeue] hands out the right-most identifier of the deque, which is
    the one [enqueue] pushed longest ago. *)
Lemma dequeue_returns_oldest now now' d s e id rest f :
  queue_metadata s !! d = Some e ->
  Entry.frames e = rest ++ [id] ->
  frame_store s !! id = Some f ->
  (dequeue now now' d s).2 = Returned (Some f) /\
  queue_metadata (dequeue now now' d s).1 !! d = Some (popped rest e) /\
  frame_store (dequeue now now' d s).1 = delete id (frame_store s).
Proof.
  intros Hd Hfr Hf.
  destruct (dequeue_frame now now' d s e id rest f Hd Hfr Hf) as (R & Q & F).
  rewrite Q, lookup_insert_eq. auto.
Qed.

Lemma dequeue_key_error now now' d s e id rest :
  queue_metadata s !! d = Some e ->
  Entry.frames e = rest ++ [id] ->
  frame_store s !! id = None ->
  (dequeue now now' d s).2 = Raised (KeyError id).
Proof.
  intros Hd Hfr Hf. apply pop_Some in Hfr.
  rewrite (dequeue_raises _ _ _ _ _ _ _ Hd Hfr Hf). reflexivity.
Qed.



(** ** Reused message ids *)

(** C10. Nothing checks that a message id is new.  When two frames with
    the same non-empty id are enqueued to a destination with nothing
    pending, the second payload replaces the first in the archive, the
    first [dequeue] returns it and deletes it, and the second [dequeue]
    ends in the [KeyError] of the archive lookup at line 172. *)
Theorem duplicate_id_breaks_dequeue d s f1 f2 id t1 t1' t2 t2' t3 t3' t4 t4' :
  nothing_pending d s ->
  message_id f1 = Some id -> message_id f2 = Some id -> id <> EmptyString ->
  let s2 := run [Enqueue t1 t1' d f1; Enqueue t2 t2' d f2] s in
  let r3 := dequeue t3 t3' d s2 in
  let r4 := dequeue t4 t4' d r3.1 in
  r3.2 = Returned (Some f2) /\ r4.2 = Raised (KeyError id).
Proof.
  intros Hs H1 H2 Nid. simpl.
  assert (T1 : truthy (message_id f1) = Some id) by (apply truthy_Some; auto).
  assert (T2 : truthy (message_id f2) = Some id) by (apply truthy_Some; auto).
  set (s1 := (enqueue t1 t1' d f1 s).1).
  set (s2 := (enqueue t2 t2' d f2 s1).1).
  set (e0 := default Entry.new (queue_metadata s !! d)).
  assert (M1 : queue_metadata s1 !! d = Some (pushed id e0)) by (apply enqueue_entry, T1).
  assert (M2 : queue_metadata s2 !! d = Some (pushed id (pushed id e0))).
  { unfold s2. rewrite (enqueue_entry _ _ _ _ _ _ T2), M1. reflexivity. }
  assert (F2 : frame_store s2 !! id = Some f2).
  { unfold s2. rewrite (enqueue_frame_store _ _ _ _ _ _ T2). apply lookup_insert_eq. }
  assert (E0 : Entry.frames e0 = []) by (apply nothing_pending_default, Hs).
  destruct (dequeue_returns_oldest t3 t3' d s2 _ id [id] f2 M2) as (R3 & M3 & F3).
  { simpl. rewrite E0. reflexivity. }
  { exact F2. }
  split; [exact R3|].
  eapply (dequeue_key_error _ _ _ _ _ id []); [exact M3|reflexivity|].
  rewrite F3. apply lookup_delete_eq.
Qed.

Lemma duplicate_id_breaks_dequeue_witness :
  let s2 := run [Enqueue 1 1 "/queue/a" (mkFrame (Some "7"%string) "first");
                 Enqueue 2 2 "/queue/a" (mkFrame (Some "7"%string) "second")]
              (new_store 0 "/var/coilmq" None None) in
  let r3 := dequeue 3 3 "/queue/a" s2 in
  let r4 := dequeue 4 4 "/queue/a" r3.1 in
  r3.2 = Returned (Some (mkFrame (Some "7"%string) "second")) /\
  r4.2 = Raised (KeyError "7").
Proof.
  apply (duplicate_id_breaks_dequeue "/queue/a" (new_store 0 "/var/coilmq" None None)
           (mkFrame (Some "7"%string) "first") (mkFrame (Some "7"%string) "second")
           "7" 1 1 2 2 3 3 4 4);
    try reflexivity; try discriminate.
  left. reflexivity.
Defined.

(** ** The counters *)

(** [enqueued - dequeued] is the length of the deque, in every entry. *)
Definition counters_agree (s : DbmQueue) : Prop :=
  forall d e, queue_metadata s !! d = Some e ->
    Entry.enqueued e - Entry.dequeued e = Z.of_nat (length (Entry.frames e)).

Lemma counters_agree_insert s s' d0 e0 :
  counters_agree s ->
  queue_metadata s' = <[d0 := e0]> (queue_metadata s) ->
  Entry.enqueued e0 - Entry.dequeued e0 = Z.of_nat (length (Entry.frames e0)) ->
  counters_agree s'.
Proof.
  intros Hs Hs' H0 d e. rewrite Hs'.
  destruct (decide (d0 = d)) as [<-|Hne].
  - rewrite lookup_insert_eq. intros [= <-]. exact H0.
  - rewrite lookup_insert_ne by exact Hne. apply Hs.
Qed.

Lemma popped_counters e rest id :
  Entry.frames e = rest ++ [id] ->
  Entry.enqueued e - Entry.dequeued e = Z.of_nat (length (Entry.frames e)) ->
  Entry.enqueued (popped rest e) - Entry.dequeued (popped rest e) =
  Z.of_nat (length (Entry.frames (popped rest e))).
Proof.
  intros Hfr He. rewrite Hfr, length_app in He. simpl in *. lia.
Qed.

(** Each call keeps the counters in step with the deque, also when it
    raises. *)
Lemma after_counters_agree c s : counters_agree s -> counters_agree (after c s).
Proof.
  intros Hs. destruct c as [now now' d0 f|now now' d0|d0|d0]; simpl.
  - destruct (truthy (message_id f)) as [id|] eqn:Hid.
    + eapply counters_agree_insert;
        [exact Hs|apply (enqueue_queue_metadata _ _ _ _ _ _ Hid)|].
      destruct (queue_metadata s !! d0) as [e|] eqn:Hd; simpl.
      * specialize (Hs d0 e Hd). lia.
      * reflexivity.
    + rewrite (enqueue_invalid _ _ _ _ _ Hid). exact Hs.
  - destruct (dequeue_cases now now' d0 s)
      as [_ ->|e id rest f Hd Hfr _ ->|e id rest Hd Hfr _ ->]; simpl.
    + exact Hs.
    + eapply (counters_agree_insert s _ d0 (popped rest e)); [exact Hs| |].
      * rewrite sync_queue_metadata. reflexivity.
      * apply (popped_counters e rest id Hfr), (Hs d0 e Hd).
    + eapply (counters_agree_insert s _ d0 (popped rest e)); [exact Hs|reflexivity|].
      apply (popped_counters e rest id Hfr), (Hs d0 e Hd).
  - rewrite has_frames_pure. exact Hs.
  - rewrite size_pure. exact Hs.
Qed.

Lemma run_counters_agree calls s : counters_agree s -> counters_agree (run calls s).
Proof.
  revert s. induction calls as [|c calls IH]; intros s Hs; [exact Hs|].
  simpl. apply IH, after_counters_agree, Hs.
Qed.

Lemma new_store_counters_agree now dir cp_ops cp_timeout :
  counters_agree (new_store now dir cp_ops cp_timeout).
Proof. intros d e H. simpl in H. rewrite lookup_empty in H. discriminate. Qed.

(** C2. After any sequence of calls on a store built on an empty
    directory, every destination that has a metadata entry satisfies
    [enqueued - dequeued = len(frames)], and that number is what [size]
    returns for it. *)
Theorem counter_invariant calls now dir cp_ops cp_timeout d e :
  let s := run calls (new_store now dir cp_ops cp_timeout) in
  queue_metadata s !! d = Some e ->
  Entry.enqueued e - Entry.dequeued e = Z.of_nat (length (Entry.frames e)) /\
  size d s = (s, Returned (Entry.enqueued e - Entry.dequeued e)).
Proof.
  intros s Hd.
  pose proof (run_counters_agree calls _
                (new_store_counters_agree now dir cp_ops cp_timeout) d e Hd) as H.
  split; [exact H|]. unfold size. rewrite Hd, H. reflexivity.
Qed.

Lemma counter_invariant_witness :
  let s := run [Enqueue 1 1 "/queue/a" (frame_of "1");
                Enqueue 2 2 "/queue/a" (frame_of "2");
                Dequeue 3 3 "/queue/a"]
             (new_store 0 "/var/coilmq" None None) in
  let e := Entry.mk ["2"%string] 2 1 0 in
  Entry.enqueued e - Entry.dequeued e = Z.of_nat (length (Entry.frames e)) /\
  size "/queue/a" s = (s, Returned (Entry.enqueued e - Entry.dequeued e)).
Proof.
  apply (counter_invariant
           [Enqueue 1 1 "/queue/a" (frame_of "1");
            Enqueue 2 2 "/queue/a" (frame_of "2");
            Dequeue 3 3 "/queue/a"]
           0 "/var/coilmq" None None "/queue/a" (Entry.mk ["2"%string] 2 1 0)).
  vm_compute. reflexivity.
Defined.

(** ** Pending identifiers and the frame archive *)


(** [id] sits in the deque of some destination. *)
Definition pending (s : DbmQueue) (id : string) : Prop :=
  map_Exists (fun _ e => id ∈ Entry.frames e) (queue_metadata s).











(** * Further properties of the store *)

(** ** The shape of a call

    A call either never reaches [_sync] (the early exits, the raise of
    line 172 and the two queries) and then leaves the scheduler alone, or
    it hands [_sync] a store with one more operation counted. *)

Inductive after_shape (c : call) (s : DbmQueue) : Prop :=
  | shape_quiet :
      _opcount (after c s) = _opcount s ->
      _last_sync (after c s) = _last_sync s ->
      sync_calls (after c s) = sync_calls s ->
      metadata_db (after c s) = metadata_db s ->
      checkpoint_operations (after c s) = checkpoint_operations s ->
      checkpoint_timeout (after c s) = checkpoint_timeout s ->
      data_dir (after c s) = data_dir s ->
      ~ completes c s ->
      after_shape c s
  | shape_counted b now now' :
      readings c = Some (now, now') ->
      completes c s ->
      after c s = (_sync now now' b).1 ->
      _opcount b = _opcount s + 1 ->
      _last_sync b = _last_sync s ->
      sync_calls b = sync_calls s ->
      checkpoint_operations b = checkpoint_operations s ->
      checkpoint_timeout b = checkpoint_timeout s ->
      data_dir b = data_dir s ->
      after_shape c s.

Lemma after_shapes c s : after_shape c s.
Proof.
  destruct c as [now now' d f|now now' d|d|d].
  - destruct (truthy (message_id f)) as [id|] eqn:Hid.
    + apply (shape_counted _ _ (enqueue_body d id f s) now now'); try reflexivity.
      * simpl. apply (enqueue_returns _ _ _ _ id), Hid.
      * simpl. rewrite (enqueue_unfold _ _ _ _ _ _ Hid). reflexivity.
    + apply shape_quiet; simpl; rewrite (enqueue_invalid _ _ _ _ _ Hid);
        try reflexivity. discriminate.
  - destruct (dequeue_cases now now' d s) as [_ E|e id rest f Hd _ _ E|e id rest Hd _ _ E].
    + apply shape_quiet; simpl; rewrite E; try reflexivity.
      intros [f Hf]. discriminate.
    + apply (shape_counted _ _ (dequeue_body d id rest e s) now now'); try reflexivity.
      * simpl. exists f. rewrite E. reflexivity.
      * simpl. rewrite E. reflexivity.
    + apply shape_quiet; simpl; rewrite E; try reflexivity.
      intros [f Hf]. discriminate.
  - apply shape_quiet; simpl; rewrite ?has_frames_pure; try reflexivity. tauto.
  - apply shape_quiet; simpl; rewrite ?size_pure; try reflexivity. tauto.
Qed.

Lemma sync_data_dir now now' s : data_dir (_sync now now' s).1 = data_dir s.
Proof. unfold _sync. destruct (_ || _); reflexivity. Qed.

(** What [_sync] does to the scheduler, by cases on the test. *)
Lemma sync_cases now now' b :
  (( _opcount b > checkpoint_operations b \/
     now > _last_sync b + checkpoint_timeout b) /\
   _opcount (_sync now now' b).1 = 0 /\
   _last_sync (_sync now now' b).1 = now' /\
   sync_calls (_sync now now' b).1 = S (sync_calls b) /\
   metadata_db (_sync now now' b).1 = queue_metadata b) \/
  (~ (_opcount b > checkpoint_operations b \/
      now > _last_sync b + checkpoint_timeout b) /\
   _sync now now' b = (b, Returned tt)).
Proof.
  destruct (Z_gt_dec (_opcount b) (checkpoint_operations b)) as [G|G];
    [|destruct (Z_gt_dec now (_last_sync b + checkpoint_timeout b)) as [G'|G']].
  - left. rewrite sync_flushes by auto. simpl. auto.
  - left. rewrite sync_flushes by auto. simpl. auto.
  - right. split; [lia|]. apply sync_skips. lia.
Qed.

(** The configuration of a store is fixed at construction. *)
Lemma after_configuration c s :
  checkpoint_operations (after c s) = checkpoint_operations s /\
  checkpoint_timeout (after c s) = checkpoint_timeout s /\
  data_dir (after c s) = data_dir s.
Proof.
  destruct (after_shapes c s) as [_ _ _ _ K T D _|b now now' _ _ E _ _ _ K T D]; [auto|].
  rewrite E. destruct (sync_thresholds now now' b) as [-> ->].
  rewrite sync_data_dir. auto.
Qed.

Lemma run_configuration calls s :
  checkpoint_operations (run calls s) = checkpoint_operations s /\
  checkpoint_timeout (run calls s) = checkpoint_timeout s /\
  data_dir (run calls s) = data_dir s.
Proof.
  revert s. induction calls as [|c calls IH]; intros s; [auto|].
  simpl. destruct (IH (after c s)) as (-> & -> & ->). apply after_configuration.
Qed.

(** ** The number of unflushed operations *)

Definition opcount_bounded (s : DbmQueue) : Prop :=
  0 <= _opcount s <= Z.max 0 (checkpoint_operations s).

Lemma after_opcount_bounded c s : opcount_bounded s -> opcount_bounded (after c s).
Proof.
  unfold opcount_bounded. intros Hs.
  destruct (after_shapes c s) as [O _ _ _ K _ _ _|b now now' _ _ E O _ _ K _ _].
  - rewrite O, K. exact Hs.
  - rewrite E. destruct (sync_thresholds now now' b) as [-> _].
    destruct (sync_cases now now' b) as [(_ & -> & _)|(N & ->)]; simpl; lia.
Qed.

(** X1. From the store [__init__] builds, whatever it finds in the data
    directory and whatever calls follow, the count of operations not yet
    flushed stays between 0 and [checkpoint_operations] (0 when that
    threshold is negative), and the thresholds and the data directory
    never change. *)
Theorem unflushed_operations_bounded calls now dir cp_ops cp_timeout os :
  let s0 := (__init__ now dir cp_ops cp_timeout os).2 in
  let s := run calls s0 in
  0 <= _opcount s <= Z.max 0 (checkpoint_operations s) /\
  checkpoint_operations s = default 100 cp_ops /\
  checkpoint_timeout s = default 20 cp_timeout * 1000000 /\
  data_dir s = dir.
Proof.
  intros s0 s. subst s.
  destruct (run_configuration calls s0) as (K & T & D). rewrite K, T, D.
  split; [|repeat split].
  assert (H : opcount_bounded (run calls s0)).
  { assert (H0 : opcount_bounded s0) by (unfold opcount_bounded; simpl; lia).
    clear K T D. revert H0. generalize s0. clear s0.
    induction calls as [|c calls IH]; intros s0 H0; [exact H0|].
    simpl. apply IH, after_opcount_bounded, H0. }
  unfold opcount_bounded in H. rewrite K in H. exact H.
Qed.

(** ** When the first flush comes *)

(** Every call of the sequence runs to its end, each on the store the
    previous ones left. *)
Fixpoint all_complete (calls : list call) (s : DbmQueue) : Prop :=
  match calls with
  | [] => True
  | c :: rest => completes c s /\ all_complete rest (after c s)
  end.

(** No call of the sequence reads a clock later than [deadline] at
    line 227. *)
Definition read_by (deadline : Z) (calls : list call) : Prop :=
  Forall (fun c => forall now now', readings c = Some (now, now') -> now <= deadline)
    calls.

Lemma all_complete_app l1 l2 s :
  all_complete (l1 ++ l2) s <-> all_complete l1 s /\ all_complete l2 (run l1 s).
Proof.
  revert s. induction l1 as [|c l1 IH]; intros s; simpl; [tauto|].
  rewrite IH. tauto.
Qed.

Lemma all_complete_take n calls s :
  all_complete calls s -> all_complete (take n calls) s.
Proof.
  intros H. rewrite <- (take_drop n calls) in H.
  apply all_complete_app in H. tauto.
Qed.

Lemma completes_readings c s : completes c s -> is_Some (readings c).
Proof. destruct c; simpl; eauto; contradiction. Qed.

Lemma completed_call c s now now' :
  completes c s -> readings c = Some (now, now') ->
  exists b,
    after c s = (_sync now now' b).1 /\
    _opcount b = _opcount s + 1 /\ _last_sync b = _last_sync s /\
    sync_calls b = sync_calls s /\
    checkpoint_operations b = checkpoint_operations s /\
    checkpoint_timeout b = checkpoint_timeout s.
Proof.
  intros Hc Hr.
  destruct (after_shapes c s) as [_ _ _ _ _ _ _ N|b n n' R _ E O L S K T _];
    [contradiction|].
  rewrite Hr in R. injection R as <- <-. exists b. auto 10.
Qed.

Lemma completed_call_quiet c s now now' :
  completes c s -> readings c = Some (now, now') ->
  _opcount s + 1 <= checkpoint_operations s ->
  now <= _last_sync s + checkpoint_timeout s ->
  sync_calls (after c s) = sync_calls s /\
  _opcount (after c s) = _opcount s + 1 /\
  _last_sync (after c s) = _last_sync s.
Proof.
  intros Hc Hr Ho Ht.
  destruct (completed_call c s now now' Hc Hr) as (b & -> & O & L & S & K & T).
  destruct (sync_cases now now' b) as [(G & _)|(_ & ->)]; [lia|]. simpl. auto.
Qed.

Lemma completed_call_flushes c s now now' :
  completes c s -> readings c = Some (now, now') ->
  _opcount s + 1 > checkpoint_operations s \/
  now > _last_sync s + checkpoint_timeout s ->
  sync_calls (after c s) = S (sync_calls s) /\
  _opcount (after c s) = 0 /\
  _last_sync (after c s) = now' /\
  metadata_db (after c s) = queue_metadata (after c s).
Proof.
  intros Hc Hr Hd.
  destruct (completed_call c s now now' Hc Hr) as (b & -> & O & L & S & K & T).
  rewrite sync_queue_metadata.
  destruct (sync_cases now now' b) as [(_ & -> & -> & -> & ->)|(N & _)]; [|lia].
  rewrite S. auto.
Qed.

Lemma quiet_run calls s :
  all_complete calls s ->
  read_by (_last_sync s + checkpoint_timeout s) calls ->
  _opcount s + Z.of_nat (length calls) <= checkpoint_operations s ->
  sync_calls (run calls s) = sync_calls s /\
  _opcount (run calls s) = _opcount s + Z.of_nat (length calls) /\
  _last_sync (run calls s) = _last_sync s.
Proof.
  revert s. induction calls as [|c calls IH]; intros s Hc Hr Ho.
  - simpl. repeat split. lia.
  - simpl in Hc. destruct Hc as [Hc Hrest].
    apply Forall_cons in Hr as [Hr Hrs].
    destruct (completes_readings c s Hc) as [[now now'] R].
    rewrite length_cons in Ho.
    destruct (completed_call_quiet c s now now' Hc R) as (S1 & O1 & L1);
      [lia|exact (Hr now now' R)|].
    destruct (after_configuration c s) as (K1 & T1 & _).
    destruct (IH (after c s)) as (S2 & O2 & L2).
    + exact Hrest.
    + rewrite L1, T1. exact Hrs.
    + rewrite O1, K1. lia.
    + change (run (c :: calls) s) with (run calls (after c s)).
      rewrite S2, O2, L2, S1, O1, L1, length_cons. repeat split. lia.
Qed.

(** X2. Starting with no unflushed operation and reading the clock within
    the timeout, a run of completed [enqueue]/[dequeue] calls as long as
    [checkpoint_operations] never calls [sync()]: after [n] of them the
    count is [n].  The next completed call is the first to flush; it
    resets the count and leaves the metadata file equal to the metadata. *)
Theorem first_flush_after_threshold calls c s :
  _opcount s = 0 ->
  Z.of_nat (length calls) = checkpoint_operations s ->
  all_complete (calls ++ [c]) s ->
  read_by (_last_sync s + checkpoint_timeout s) (calls ++ [c]) ->
  (forall n, (n <= length calls)%nat ->
     sync_calls (run (take n calls) s) = sync_calls s /\
     _opcount (run (take n calls) s) = Z.of_nat n) /\
  sync_calls (run (calls ++ [c]) s) = S (sync_calls s) /\
  _opcount (run (calls ++ [c]) s) = 0 /\
  metadata_db (run (calls ++ [c]) s) = queue_metadata (run (calls ++ [c]) s).
Proof.
  intros O K Hc Hr.
  apply all_complete_app in Hc as [Hc1 Hc2]. simpl in Hc2. destruct Hc2 as [Hc2 _].
  apply Forall_app in Hr as [Hr1 Hr2].
  split.
  - intros n Hn.
    destruct (quiet_run (take n calls) s) as (S1 & O1 & _).
    + apply all_complete_take, Hc1.
    + apply Forall_take, Hr1.
    + rewrite length_take. lia.
    + rewrite S1, O1, O, length_take. split; [reflexivity|lia].
  - destruct (quiet_run calls s Hc1 Hr1) as (S1 & O1 & L1); [lia|].
    rewrite run_snoc.
    destruct (completes_readings c _ Hc2) as [[now now'] R].
    destruct (completed_call_flushes c (run calls s) now now' Hc2 R) as (S2 & O2 & _ & D2).
    + left. destruct (run_configuration calls s) as (-> & _). lia.
    + rewrite S2, S1. auto.
Qed.

Lemma first_flush_after_threshold_witness :
  let s := new_store 0 "/var/coilmq" (Some 2) (Some 3600) in
  let calls := [Enqueue 1 1 "/queue/c" (frame_of "1"); Dequeue 2 2 "/queue/c"] in
  let c := Enqueue 3 3 "/queue/c" (frame_of "3") in
  sync_calls (run (calls ++ [c]) s) = S (sync_calls s) /\
  _opcount (run (calls ++ [c]) s) = 0 /\
  metadata_db (run (calls ++ [c]) s) = queue_metadata (run (calls ++ [c]) s).
Proof.
  intros s calls c.
  apply (first_flush_after_threshold calls c s).
  - reflexivity.
  - reflexivity.
  - simpl. split; [|split; [|split; [|exact I]]].
    + vm_compute. reflexivity.
    + exists (frame_of "1"). vm_compute. reflexivity.
    + vm_compute. reflexivity.
  - repeat constructor; intros now now' [= <- <-]; vm_compute; discriminate.
Defined.

(** ** Entries and destinations *)

(** The destination a call names. *)
Definition addressed (c : call) : string :=
  match c with
  | Enqueue _ _ d _ | Dequeue _ _ d | HasFrames d | Size d => d
  end.

(** What one call can do to the metadata: nothing, or replace the entry
    of the destination it names by one with an id pushed or popped. *)
Inductive metadata_step (c : call) (s : DbmQueue) : Prop :=
  | step_same :
      queue_metadata (after c s) = queue_metadata s -> metadata_step c s
  | step_pushed id :
      queue_metadata (after c s) =
        <[addressed c := pushed id (default Entry.new (queue_metadata s !! addressed c))]>
          (queue_metadata s) ->
      metadata_step c s
  | step_popped e id rest :
      queue_metadata s !! addressed c = Some e ->
      Entry.frames e = rest ++ [id] ->
      queue_metadata (after c s) = <[addressed c := popped rest e]> (queue_metadata s) ->
      metadata_step c s.

Lemma metadata_steps c s : metadata_step c s.
Proof.
  destruct c as [now now' d f|now now' d|d|d]; simpl.
  - destruct (truthy (message_id f)) as [id|] eqn:Hid.
    + apply (step_pushed (Enqueue now now' d f) s id). simpl.
      apply enqueue_queue_metadata, Hid.
    + apply step_same. simpl. rewrite (enqueue_invalid _ _ _ _ _ Hid). reflexivity.
  - destruct (dequeue_cases now now' d s) as [_ E|e id rest f Hd Hfr _ E|e id rest Hd Hfr _ E].
    + apply step_same. simpl. rewrite E. reflexivity.
    + apply (step_popped (Dequeue now now' d) s e id rest Hd Hfr). simpl. rewrite E. simpl.
      apply sync_queue_metadata.
    + apply (step_popped (Dequeue now now' d) s e id rest Hd Hfr). simpl. rewrite E. reflexivity.
  - apply step_same. simpl. rewrite has_frames_pure. reflexivity.
  - apply step_same. simpl. rewrite size_pure. reflexivity.
Qed.

Lemma after_other_destination c s d :
  addressed c <> d ->
  queue_metadata (after c s) !! d = queue_metadata s !! d.
Proof.
  intros Hne.
  destruct (metadata_steps c s) as [->|id ->|e id rest _ _ ->];
    [reflexivity|apply lookup_insert_ne, Hne|apply lookup_insert_ne, Hne].
Qed.

Lemma after_entry_grows c s d e :
  queue_metadata s !! d = Some e ->
  exists e', queue_metadata (after c s) !! d = Some e' /\
    Entry.enqueued e <= Entry.enqueued e' /\ Entry.dequeued e <= Entry.dequeued e'.
Proof.
  intros Hd. destruct (decide (addressed c = d)) as [<-|Hne].
  - destruct (metadata_steps c s) as [->|id ->|e0 id rest Hd0 _ ->].
    + exists e. split; [exact Hd|lia].
    + rewrite lookup_insert_eq, Hd. eexists. split; [reflexivity|]. simpl. lia.
    + rewrite lookup_insert_eq. eexists. split; [reflexivity|].
      assert (e0 = e) as -> by congruence. simpl. lia.
  - exists e. rewrite (after_other_destination c s d Hne). split; [exact Hd|lia].
Qed.

(** X3. A metadata entry, once there, is never removed, and its
    [enqueued] and [dequeued] counters never go down, whatever calls
    follow and however they end. *)
Theorem entries_persist_counters_grow calls s d e :
  queue_metadata s !! d = Some e ->
  exists e', queue_metadata (run calls s) !! d = Some e' /\
    Entry.enqueued e <= Entry.enqueued e' /\ Entry.dequeued e <= Entry.dequeued e'.
Proof.
  revert s e. induction calls as [|c calls IH]; intros s e Hd.
  - exists e. split; [exact Hd|lia].
  - destruct (after_entry_grows c s d e Hd) as (e1 & H1 & E1 & D1).
    destruct (IH (after c s) e1 H1) as (e2 & H2 & E2 & D2).
    exists e2. split; [exact H2|lia].
Qed.

Lemma entries_persist_counters_grow_witness :
  exists e', queue_metadata
               (run [Dequeue 2 2 "/queue/a"; Dequeue 3 3 "/queue/a"]
                  (run [Enqueue 1 1 "/queue/a" (frame_of "1")]
                     (new_store 0 "/var/coilmq" None None))) !! "/queue/a"%string = Some e' /\
    Entry.enqueued (Entry.mk ["1"%string] 1 0 0) <= Entry.enqueued e' /\
    Entry.dequeued (Entry.mk ["1"%string] 1 0 0) <= Entry.dequeued e'.
Proof.
  apply (entries_persist_counters_grow
           [Dequeue 2 2 "/queue/a"; Dequeue 3 3 "/queue/a"]
           (run [Enqueue 1 1 "/queue/a" (frame_of "1")]
              (new_store 0 "/var/coilmq" None None))
           "/queue/a" (Entry.mk ["1"%string] 1 0 0)).
  vm_compute. reflexivity.
Defined.

(** X4. Calls that name other destinations leave the entry of [d] as it
    is, so [size d] and [has_frames d] answer as before. *)
Theorem other_destinations_untouched calls s d :
  Forall (fun c => addressed c <> d) calls ->
  queue_metadata (run calls s) !! d = queue_metadata s !! d /\
  (size d (run calls s)).2 = (size d s).2 /\
  (has_frames d (run calls s)).2 = (has_frames d s).2.
Proof.
  intros Hall.
  assert (H : queue_metadata (run calls s) !! d = queue_metadata s !! d).
  { revert s. induction Hall as [|c calls Hc _ IH]; intros s; [reflexivity|].
    simpl. rewrite IH. apply after_other_destination, Hc. }
  split; [exact H|]. unfold size, has_frames. rewrite H.
  destruct (queue_metadata s !! d); auto.
Qed.

Lemma other_destinations_untouched_witness :
  let s := run [Enqueue 1 1 "/queue/a" (frame_of "1")]
             (new_store 0 "/var/coilmq" None None) in
  let calls := [Enqueue 2 2 "/queue/b" (frame_of "2"); Dequeue 3 3 "/queue/b";
                Dequeue 4 4 "/queue/c"] in
  queue_metadata (run calls s) !! "/queue/a"%string = queue_metadata s !! "/queue/a"%string /\
  (size "/queue/a" (run calls s)).2 = (size "/queue/a" s).2 /\
  (has_frames "/queue/a" (run calls s)).2 = (has_frames "/queue/a" s).2.
Proof.
  intros s calls. apply (other_destinations_untouched calls s "/queue/a").
  repeat constructor; simpl; discriminate.
Defined.

(** ** What one call does to a queue *)



Lemma last_in_frames (e : Entry.t) rest id :
  Entry.frames e = rest ++ [id] -> id ∈ Entry.frames e.
Proof.
  intros ->. apply elem_of_app. right. apply list_elem_of_singleton. reflexivity.
Qed.



(** X7. When the archive has no payload for the right-most id of a deque,
    [dequeue] raises [KeyError] after lines 169-170 have run: the id is
    gone from the deque and [dequeued] has gone up, while the archive, the
    operation count, the last flush and the metadata file are untouched,
    and no [sync()] happens in that call. *)
Theorem failed_dequeue_drops_id now now' d s e id rest :
  queue_metadata s !! d = Some e ->
  Entry.frames e = rest ++ [id] ->
  frame_store s !! id = None ->
  let r := dequeue now now' d s in
  r.2 = Raised (KeyError id) /\
  queue_metadata r.1 !! d =
    Some (Entry.mk rest (Entry.enqueued e) (Entry.dequeued e + 1) (Entry.size e)) /\
  (forall d', d' <> d -> queue_metadata r.1 !! d' = queue_metadata s !! d') /\
  frame_store r.1 = frame_store s /\
  _opcount r.1 = _opcount s /\ _last_sync r.1 = _last_sync s /\
  sync_calls r.1 = sync_calls s /\ metadata_db r.1 = metadata_db s.
Proof.
  intros Hd Hfr Hf r. subst r. apply pop_Some in Hfr.
  rewrite (dequeue_raises _ _ _ _ _ _ _ Hd Hfr Hf). simpl.
  rewrite lookup_insert_eq. repeat split.
  intros d' Hne. apply lookup_insert_ne. congruence.
Qed.

Lemma failed_dequeue_drops_id_witness :
  let s := run [Enqueue 1 1 "/queue/a" (frame_of "7");
                Enqueue 2 2 "/queue/a" (frame_of "7");
                Dequeue 3 3 "/queue/a"]
             (new_store 0 "/var/coilmq" None None) in
  let r := dequeue 4 4 "/queue/a" s in
  r.2 = Raised (KeyError "7") /\
  queue_metadata r.1 !! "/queue/a"%string = Some (Entry.mk [] 2 (1 + 1) 0) /\
  (forall d', d' <> "/queue/a"%string ->
     queue_metadata r.1 !! d' = queue_metadata s !! d') /\
  frame_store r.1 = frame_store s /\
  _opcount r.1 = _opcount s /\ _last_sync r.1 = _last_sync s /\
  sync_calls r.1 = sync_calls s /\ metadata_db r.1 = metadata_db s.
Proof.
  intros s.
  apply (failed_dequeue_drops_id 4 4 "/queue/a" s (Entry.mk ["7"%string] 2 1 0) "7" []).
  - vm_compute. reflexivity.
  - reflexivity.
  - vm_compute. reflexivity.
Defined.

(** ** Archive keys and frame ids *)

(** Every payload in the archive sits under its own, non-empty id. *)
Definition archive_keyed (s : DbmQueue) : Prop :=
  forall id f, frame_store s !! id = Some f ->
    message_id f = Some id /\ id <> EmptyString.

(** No deque holds the empty id. *)
Definition ids_nonempty (s : DbmQueue) : Prop :=
  forall d e id, queue_metadata s !! d = Some e -> id ∈ Entry.frames e ->
    id <> EmptyString.

(** What one call can do to the archive. *)
Inductive archive_step (c : call) (s : DbmQueue) : Prop :=
  | archive_same :
      frame_store (after c s) = frame_store s -> archive_step c s
  | archive_put id f :
      message_id f = Some id -> id <> EmptyString ->
      frame_store (after c s) = <[id := f]> (frame_store s) ->
      archive_step c s
  | archive_del id :
      frame_store (after c s) = delete id (frame_store s) ->
      archive_step c s.

Lemma archive_steps c s : archive_step c s.
Proof.
  destruct c as [now now' d f|now now' d|d|d].
  - destruct (truthy (message_id f)) as [id|] eqn:Hid.
    + apply truthy_Some in Hid as Hid'. destruct Hid' as [Hm Hne].
      apply (archive_put _ _ id f Hm Hne). simpl. apply enqueue_frame_store, Hid.
    + apply archive_same. simpl. rewrite (enqueue_invalid _ _ _ _ _ Hid). reflexivity.
  - destruct (dequeue_cases now now' d s) as [_ E|e id rest f Hd Hfr Hf E|e id rest Hd Hfr _ E].
    + apply archive_same. simpl. rewrite E. reflexivity.
    + apply (archive_del _ _ id). simpl.
      apply (dequeue_frame now now' d s e id rest f Hd Hfr Hf).
    + apply archive_same. simpl. rewrite E. reflexivity.
  - apply archive_same. simpl. rewrite has_frames_pure. reflexivity.
  - apply archive_same. simpl. rewrite size_pure. reflexivity.
Qed.

Lemma after_archive_keyed c s : archive_keyed s -> archive_keyed (after c s).
Proof.
  intros Hs id f.
  destruct (archive_steps c s) as [->|id0 f0 Hm Hne ->|id0 ->].
  - apply Hs.
  - destruct (decide (id0 = id)) as [<-|N].
    + rewrite lookup_insert_eq. intros [= <-]. auto.
    + rewrite lookup_insert_ne by exact N. apply Hs.
  - intros H. apply lookup_delete_Some in H as [_ H]. exact (Hs id f H).
Qed.

Lemma after_ids_nonempty c s : ids_nonempty s -> ids_nonempty (after c s).
Proof.
  intros Hs d e id.
  destruct (decide (addressed c = d)) as [<-|N];
    [|rewrite (after_other_destination c s d N); apply Hs].
  destruct c as [now now' d f|now now' d|d|d]; simpl.
  - destruct (truthy (message_id f)) as [id0|] eqn:Hid.
    + rewrite (enqueue_entry _ _ _ _ _ _ Hid). intros [= <-]. simpl.
      intros [->|Hin]%elem_of_cons; [apply truthy_Some in Hid; tauto|].
      destruct (queue_metadata s !! d) as [e0|] eqn:Hd; simpl in Hin.
      * exact (Hs d e0 id Hd Hin).
      * apply elem_of_nil in Hin. contradiction.
    + rewrite (enqueue_invalid _ _ _ _ _ Hid). apply Hs.
  - assert (Hsub : forall e0 rest id0, queue_metadata s !! d = Some e0 ->
              Entry.frames e0 = rest ++ [id0] ->
              <[d := popped rest e0]> (queue_metadata s) !! d = Some e ->
              id ∈ Entry.frames e -> id <> EmptyString).
    { intros e0 rest id0 Hd Hfr. rewrite lookup_insert_eq. intros [= <-]. simpl.
      intros Hin. apply (Hs d e0 id Hd). rewrite Hfr. apply elem_of_app. auto. }
    destruct (dequeue_cases now now' d s) as [_ E|e0 id0 rest f Hd Hfr Hf E|e0 id0 rest Hd Hfr _ E].
    + rewrite E. apply Hs.
    + rewrite (proj1 (proj2 (dequeue_frame now now' d s e0 id0 rest f Hd Hfr Hf))).
      apply (Hsub e0 rest id0 Hd Hfr).
    + rewrite E. apply (Hsub e0 rest id0 Hd Hfr).
  - rewrite has_frames_pure. apply Hs.
  - rewrite size_pure. apply Hs.
Qed.

Lemma run_archive_keyed calls s :
  archive_keyed s /\ ids_nonempty s ->
  archive_keyed (run calls s) /\ ids_nonempty (run calls s).
Proof.
  revert s. induction calls as [|c calls IH]; intros s [Hk Hn]; [auto|].
  simpl. apply IH. split; [apply after_archive_keyed, Hk|apply after_ids_nonempty, Hn].
Qed.

(** X8. On a store built on an empty directory, after any sequence of
    calls (ids reused or not), every payload in the archive sits under its
    own message id, no deque holds an empty id, and a frame [dequeue]
    returns carries the id that was right-most in the destination's
    deque. *)
Theorem dequeued_frame_carries_oldest_id calls now dir cp_ops cp_timeout :
  let s := run calls (new_store now dir cp_ops cp_timeout) in
  (forall id f, frame_store s !! id = Some f ->
     message_id f = Some id /\ id <> EmptyString) /\
  (forall d e id, queue_metadata s !! d = Some e -> id ∈ Entry.frames e ->
     id <> EmptyString) /\
  (forall t t' d f,
     (dequeue t t' d s).2 = Returned (Some f) ->
     exists e id rest,
       queue_metadata s !! d = Some e /\ Entry.frames e = rest ++ [id] /\
       message_id f = Some id).
Proof.
  intros s.
  destruct (run_archive_keyed calls (new_store now dir cp_ops cp_timeout)) as [Hk Hn].
  { split; intros ?; intros *; simpl; rewrite lookup_empty; discriminate. }
  fold s in Hk, Hn. split; [exact Hk|]. split; [exact Hn|].
  intros t t' d f Hret.
  destruct (dequeue_cases t t' d s) as [_ E|e id rest f' Hd Hfr Hf E|e id rest _ _ _ E];
    rewrite E in Hret; try discriminate.
  simpl in Hret. injection Hret as ->.
  exists e, id, rest. repeat split; try assumption. apply (Hk id f Hf).
Qed.

Lemma dequeued_frame_carries_oldest_id_witness :
  let s := run [Enqueue 1 1 "/queue/a" (mkFrame (Some "7"%string) "first");
                Enqueue 2 2 "/queue/b" (mkFrame (Some "7"%string) "second")]
             (new_store 0 "/var/coilmq" None None) in
  exists e id rest,
    queue_metadata s !! "/queue/a"%string = Some e /\ Entry.frames e = rest ++ [id] /\
    message_id (mkFrame (Some "7"%string) "second") = Some id.
Proof.
  intros s.
  apply (proj2 (proj2 (dequeued_frame_carries_oldest_id
                         [Enqueue 1 1 "/queue/a" (mkFrame (Some "7"%string) "first");
                          Enqueue 2 2 "/queue/b" (mkFrame (Some "7"%string) "second")]
                         0 "/var/coilmq" None None))
           3 3 "/queue/a"%string).
  vm_compute. reflexivity.
Defined.

(** ** First in, first out, for any number of frames *)












(** ** Closing and reopening *)





(** ** The metadata file *)

(** The metadata and its file know the same destinations. *)
Definition keys_agree (s : DbmQueue) : Prop :=
  forall d, is_Some (queue_metadata s !! d) <-> is_Some (metadata_db s !! d).

Lemma sync_keys_agree now now' b : keys_agree b -> keys_agree (_sync now now' b).1.
Proof.
  intros Hb d. rewrite sync_queue_metadata.
  destruct (sync_cases now now' b) as [(_ & _ & _ & _ & ->)|(_ & ->)];
    [reflexivity|apply Hb].
Qed.

Lemma insert_known_keys_agree s s' d e e' :
  keys_agree s ->
  queue_metadata s !! d = Some e ->
  queue_metadata s' = <[d := e']> (queue_metadata s) ->
  metadata_db s' = metadata_db s ->
  keys_agree s'.
Proof.
  intros Hs Hd Hm Hdb d'. rewrite Hm, Hdb, lookup_insert_is_Some, <- (Hs d').
  split.
  - intros [<-|[_ H]]; [rewrite Hd; eauto|exact H].
  - intros H. destruct (decide (d = d')); auto.
Qed.

Lemma after_keys_agree c s : keys_agree s -> keys_agree (after c s).
Proof.
  intros Hs. destruct c as [now now' d f|now now' d|d|d]; simpl.
  - destruct (truthy (message_id f)) as [id|] eqn:Hid.
    + rewrite (enqueue_unfold _ _ _ _ _ _ Hid). apply sync_keys_agree.
      destruct (queue_metadata s !! d) as [e|] eqn:Hd.
      * apply (insert_known_keys_agree s _ d e (pushed id e) Hs Hd);
          simpl; rewrite Hd; reflexivity.
      * intros d'. simpl. rewrite Hd, !lookup_insert_is_Some, <- (Hs d'). tauto.
    + rewrite (enqueue_invalid _ _ _ _ _ Hid). exact Hs.
  - destruct (dequeue_cases now now' d s) as [_ ->|e id rest f Hd _ _ ->|e id rest Hd _ _ ->];
      simpl.
    + exact Hs.
    + apply sync_keys_agree.
      apply (insert_known_keys_agree s _ d e (popped rest e) Hs Hd); reflexivity.
    + apply (insert_known_keys_agree s _ d e (popped rest e) Hs Hd); reflexivity.
  - rewrite has_frames_pure. exact Hs.
  - rewrite size_pure. exact Hs.
Qed.

(** X11. A destination never exists in memory only: on the store
    [__init__] builds and after any sequence of calls, the metadata and
    the metadata file have entries for exactly the same destinations (the
    entry of line 145 is written through when it is created; only the
    later changes to it wait for a flush). *)
Theorem metadata_file_knows_every_destination calls now dir cp_ops cp_timeout os d :
  let s := run calls (__init__ now dir cp_ops cp_timeout os).2 in
  is_Some (queue_metadata s !! d) <-> is_Some (metadata_db s !! d).
Proof.
  intros s. subst s.
  assert (H0 : keys_agree (__init__ now dir cp_ops cp_timeout os).2)
    by (intros d'; reflexivity).
  revert H0. generalize (__init__ now dir cp_ops cp_timeout os).2.
  induction calls as [|c calls IH]; intros s0 H0; [apply H0|].
  simpl. apply IH, after_keys_agree, H0.
Qed.

(** ** What a call without a flush leaves in the metadata file *)

(** X12. An [enqueue] that does not reach a threshold writes the payload
    to the archive but pushes the id in memory only: the metadata file is
    untouched for a known destination and gains just the empty entry of
    line 145 for a new one. *)
Theorem unflushed_enqueue_stays_in_memory now now' d f id s :
  truthy (message_id f) = Some id ->
  _opcount s + 1 <= checkpoint_operations s ->
  now <= _last_sync s + checkpoint_timeout s ->
  let s' := (enqueue now now' d f s).1 in
  metadata_db s' =
    match queue_metadata s !! d with
    | Some _ => metadata_db s
    | None => <[d := Entry.new]> (metadata_db s)
    end /\
  queue_metadata s' !! d =
    Some (pushed id (default Entry.new (queue_metadata s !! d))) /\
  frame_store s' !! id = Some f /\
  sync_calls s' = sync_calls s.
Proof.
  intros Hid Ho Ht s'. subst s'.
  rewrite (enqueue_entry _ _ _ _ _ _ Hid), (enqueue_frame_store _ _ _ _ _ _ Hid),
    lookup_insert_eq.
  rewrite (enqueue_unfold _ _ _ _ _ _ Hid), sync_skips by (simpl; lia).
  simpl. auto.
Qed.

Lemma unflushed_enqueue_stays_in_memory_witness :
  let s := new_store 0 "/var/coilmq" None None in
  let s' := (enqueue 1 1 "/queue/a" (frame_of "1") s).1 in
  metadata_db s' =
    match queue_metadata s !! "/queue/a"%string with
    | Some _ => metadata_db s
    | None => <["/queue/a"%string := Entry.new]> (metadata_db s)
    end /\
  queue_metadata s' !! "/queue/a"%string =
    Some (pushed "1" (default Entry.new (queue_metadata s !! "/queue/a"%string))) /\
  frame_store s' !! "1"%string = Some (frame_of "1") /\
  sync_calls s' = sync_calls s.
Proof.
  apply (unflushed_enqueue_stays_in_memory 1 1 "/queue/a" (frame_of "1") "1"
           (new_store 0 "/var/coilmq" None None)).
  - reflexivity.
  - vm_compute. discriminate.
  - vm_compute. discriminate.
Defined.

(** X13. A [dequeue] that returns a frame without reaching a threshold
    deletes the payload from the archive but pops the id in memory only:
    the metadata file still holds what it held before the call. *)
Theorem unflushed_dequeue_stays_in_memory now now' d f s :
  (dequeue now now' d s).2 = Returned (Some f) ->
  _opcount s + 1 <= checkpoint_operations s ->
  now <= _last_sync s + checkpoint_timeout s ->
  let s' := (dequeue now now' d s).1 in
  metadata_db s' = metadata_db s /\
  sync_calls s' = sync_calls s /\
  exists e id rest,
    queue_metadata s !! d = Some e /\ Entry.frames e = rest ++ [id] /\
    queue_metadata s' !! d = Some (popped rest e) /\
    frame_store s' = delete id (frame_store s).
Proof.
  intros Hret Ho Ht s'. subst s'.
  destruct (dequeue_cases now now' d s) as [_ E|e id rest f' Hd Hfr Hf E|e id rest _ _ _ E];
    rewrite E in Hret; try discriminate.
  destruct (dequeue_returns_oldest now now' d s e id rest f' Hd Hfr Hf) as (_ & M & F).
  rewrite E in *. simpl in *. rewrite sync_skips by (simpl; lia). simpl.
  rewrite sync_skips in M, F by (simpl; lia). simpl in M, F.
  split; [reflexivity|]. split; [reflexivity|].
  exists e, id, rest. auto.
Qed.

Lemma unflushed_dequeue_stays_in_memory_witness :
  let s := run [Enqueue 1 1 "/queue/a" (frame_of "1")]
             (new_store 0 "/var/coilmq" None None) in
  let s' := (dequeue 2 2 "/queue/a" s).1 in
  metadata_db s' = metadata_db s /\
  sync_calls s' = sync_calls s /\
  exists e id rest,
    queue_metadata s !! "/queue/a"%string = Some e /\ Entry.frames e = rest ++ [id] /\
    queue_metadata s' !! "/queue/a"%string = Some (popped rest e) /\
    frame_store s' = delete id (frame_store s).
Proof.
  intros s.
  apply (unflushed_dequeue_stays_in_memory 2 2 "/queue/a" (frame_of "1") s).
  - vm_compute. reflexivity.
  - vm_compute. discriminate.
  - vm_compute. discriminate.
Defined.
